(** * DotML.Utils / Safetensor / st_display.py

    A shallow embedding of the nine-line script that merges the tensors of
    several safetensors containers into one dictionary and prints it:

<<
    tensors = {}
    for path in sys.argv[1:]:
        with safe_open(path, framework="pt", device="cpu") as f:
            for k in f.keys():
                tensors[k] = f.get_tensor(k)
    print(tensors)
>>

    The safetensors reader and the tensor type are external: they are the
    section variables [safe_open], [Tensor] and [Exn] below.  The script is
    written in a small monad that threads the dictionary [tensors], raises
    the reader's exceptions and records the observable events of a run. *)

From stdpp Require Import gmap strings list fin_maps.

#[local] Set Warnings "-clear-no-such-hyp".

Module StDisplay.

Section Script.

(** ** The external world *)

(** [Tensor] is [torch.Tensor], opaque to the script; [Exn] is the type of
    the exceptions the reader may raise. *)
Context {Tensor Exn : Type}.

(** What the script uses of the object bound by [with safe_open(..) as f]:
    [f.keys()] and [f.get_tensor(k)]. *)
Record handle : Type := Handle {
  keys : list string;
  get_tensor : string → Exn + Tensor
}.

(** [safe_open(path, framework, device)]: an exception or a handle. *)
Variable safe_open : string → string → string → Exn + handle.

(** ** Observable events of a run *)

Inductive event : Type :=
| EvEnter (path : string)                (* the handle of [path] is acquired *)
| EvGetTensor (path k : string)          (* [f.get_tensor(k)] is called *)
| EvSetItem (k : string) (v : Tensor)    (* [tensors[k] = v] *)
| EvExit (path : string)                 (* the handle of [path] is released *)
| EvPrint (d : gmap string Tensor).      (* [print(d)] writes [d] to stdout *)

(** ** The monad of the script *)

Record outcome (A : Type) : Type := Outcome {
  trace : list event;
  tensors : gmap string Tensor;
  result : Exn + A
}.
Arguments Outcome {A} _ _ _.
Arguments trace {A} _.
Arguments tensors {A} _.
Arguments result {A} _.

Definition M (A : Type) : Type := gmap string Tensor → outcome A.

Definition ret {A} (a : A) : M A := λ d, Outcome [] d (inr a).

Definition raise {A} (e : Exn) : M A := λ d, Outcome [] d (inl e).

Definition bind {A B} (c : M A) (f : A → M B) : M B := λ d,
  let o := c d in
  match result o with
  | inl e => Outcome (trace o) (tensors o) (inl e)
  | inr a =>
      let o' := f a (tensors o) in
      Outcome (trace o ++ trace o') (tensors o') (result o')
  end.

Notation "x <- c1 ;; c2" := (bind c1 (λ x, c2))
  (at level 100, c1 at next level, right associativity).
Notation "c1 ;; c2" := (bind c1 (λ _, c2))
  (at level 100, right associativity).

(** A call into the external library: its exception is raised as it is. *)
Definition call {A} (r : Exn + A) : M A :=
  match r with
  | inl e => raise e
  | inr a => ret a
  end.

Definition emit (ev : event) : M unit := λ d, Outcome [ev] d (inr tt).

(** [tensors[k] = v] *)
Definition setitem (k : string) (v : Tensor) : M unit := λ d,
  Outcome [EvSetItem k v] (<[k := v]> d) (inr tt).

(** [print(tensors)]: the only place that reads the dictionary. *)
Definition print : M unit := λ d, Outcome [EvPrint d] d (inr tt).

(** [for x in l: body x]: stops at the first exception. *)
Fixpoint for_each {A} (l : list A) (body : A → M unit) : M unit :=
  match l with
  | [] => ret tt
  | x :: l' => body x ;; for_each l' body
  end.

(** [try: c finally: cleanup]: [cleanup] runs whether or not [c] raised,
    and the exception of [c], if any, is raised again after it. *)
Definition finally (c cleanup : M unit) : M unit := λ d,
  let o := c d in
  let o' := cleanup (tensors o) in
  Outcome (trace o ++ trace o') (tensors o')
          (match result o with
           | inl e => inl e
           | inr _ => result o'
           end).

(** [with safe_open(path, framework="pt", device="cpu") as f: body f].
    When [safe_open] raises, no handle exists and nothing is released. *)
Definition with_safe_open (path : string) (body : handle → M unit) : M unit :=
  f <- call (safe_open path "pt" "cpu") ;;
  emit (EvEnter path) ;;
  finally (body f) (emit (EvExit path)).

(** ** The script *)

(** Line 9: [tensors[k] = f.get_tensor(k)]. *)
Definition load (path : string) (f : handle) (k : string) : M unit :=
  emit (EvGetTensor path k) ;;
  v <- call (get_tensor f k) ;;
  setitem k v.

(** Lines 7-9. *)
Definition visit (path : string) : M unit :=
  with_safe_open path (λ f, for_each (keys f) (load path f)).

(** Lines 6-9: the loop over the paths. *)
Definition collect (paths : list string) : M unit :=
  for_each paths visit.

(** Lines 5-10; [sys.argv[1:]] is [tail argv]. *)
Definition main (argv : list string) : outcome unit :=
  (collect (tail argv) ;; print) ∅.

(** What a run wrote to standard output. *)
Definition stdout (t : list event) : list (gmap string Tensor) :=
  omap (λ ev, match ev with EvPrint d => Some d | _ => None end) t.

(** ** Reading a run *)

(** The paths whose handle was acquired, in the order of acquisition. *)
Definition entered (t : list event) : list string :=
  omap (λ ev, match ev with EvEnter p => Some p | _ => None end) t.

(** The (path, name) pairs whose retrieval was started, in order. *)
Definition retrieved (t : list event) : list (string * string) :=
  omap (λ ev, match ev with EvGetTensor p k => Some (p, k) | _ => None end) t.

(** The insertions [tensors[k] = v] of a run, in order. *)
Definition insertions (t : list event) : list (string * Tensor) :=
  omap (λ ev, match ev with EvSetItem k v => Some (k, v) | _ => None end) t.

(** The dictionary obtained from [d] by the insertions of [t] alone. *)
Definition replay (d : gmap string Tensor) (t : list event) : gmap string Tensor :=
  foldl (λ d kv, <[kv.1 := kv.2]> d) d (insertions t).

(** The final state of a run as a value: the exception, or the dictionary. *)
Definition returned (o : outcome unit) : Exn + gmap string Tensor :=
  match result o with
  | inl e => inl e
  | inr _ => inr (tensors o)
  end.

(** The mapping a run ends with, when it ends without an exception. *)
Definition mapping (o : outcome unit) : option (gmap string Tensor) :=
  match result o with
  | inl _ => None
  | inr _ => Some (tensors o)
  end.

(** Scoping of handles along a trace.  [held] is the path whose handle is
    open, if any.  A handle is acquired only when none is open, a tensor is
    retrieved only through the open handle, only the open handle is released,
    and the dictionary is printed with no handle open. *)
Definition scope_step (held : option string) (ev : event) : option (option string) :=
  match ev, held with
  | EvEnter p, None => Some (Some p)
  | EvGetTensor p _, Some q => if decide (p = q) then Some (Some q) else None
  | EvSetItem _ _, _ => Some held
  | EvExit p, Some q => if decide (p = q) then Some None else None
  | EvPrint _, None => Some None
  | _, _ => None
  end.

Fixpoint scoped (held : option string) (t : list event) : option (option string) :=
  match t with
  | [] => Some held
  | ev :: t' =>
      match scope_step held ev with
      | Some held' => scoped held' t'
      | None => None
      end
  end.

(** ** The containers of a run *)

(** The external call returned; it did not raise. *)
Definition ok {A} (r : Exn + A) : bool :=
  match r with
  | inl _ => false
  | inr _ => true
  end.

(** Every name that [f] enumerates can be retrieved. *)
Definition readable (f : handle) : bool :=
  forallb (λ k, ok (get_tensor f k)) (keys f).

(** [path] opens as a container all of whose names can be retrieved. *)
Definition valid (path : string) : bool :=
  match safe_open path "pt" "cpu" with
  | inl _ => false
  | inr f => readable f
  end.

(** The names that the container at [path] enumerates, in its order; no
    name when it does not open. *)
Definition names (path : string) : list string :=
  match safe_open path "pt" "cpu" with
  | inl _ => []
  | inr f => keys f
  end.

(** The value that the container at [path] returns for the name [k]. *)
Definition value (path k : string) : option Tensor :=
  match safe_open path "pt" "cpu" with
  | inl _ => None
  | inr f => match get_tensor f k with inl _ => None | inr v => Some v end
  end.

(** The binding of the name [k] after the valid [paths] are merged into [d]:
    the value of the last path that enumerates [k], else the binding in [d]. *)
Definition rebind (k : string) (b : option Tensor) (path : string) : option Tensor :=
  if decide (k ∈ names path) then value path k else b.

Definition binding (d : gmap string Tensor) (paths : list string) (k : string)
  : option Tensor :=
  foldl (rebind k) (d !! k) paths.

(** Every name enumerated along [paths]. *)
Definition enumerated (paths : list string) : gset string :=
  list_to_set (paths ≫= names).

(** The exception [e] comes from the reader: it is the one that opening one
    of [paths], or retrieving a name that it enumerates, raises. *)
Definition raised_by_reader (paths : list string) (e : Exn) : Prop :=
  ∃ path, path ∈ paths ∧
    (safe_open path "pt" "cpu" = inl e ∨
     ∃ f k, safe_open path "pt" "cpu" = inr f ∧ k ∈ keys f ∧ get_tensor f k = inl e).

(** The (path, name) pairs of [paths] in the order of the source's two
    loops: path by path, and within a path as the container enumerates. *)
Definition enumeration (paths : list string) : list (string * string) :=
  paths ≫= λ path, (λ k, (path, k)) <$> names path.

(** ** The accumulation as a fold *)

(** A step that may raise, lifted to an accumulator that carries the
    exception once one is raised. *)
Definition on_ok {A B} (step : B → A → Exn + B) (acc : Exn + B) (x : A) : Exn + B :=
  match acc with
  | inl e => inl e
  | inr b => step b x
  end.

(** A left fold whose step may raise: the first exception is the result. *)
Definition foldl_exn {A B} (step : B → A → Exn + B) (b : B) (l : list A) : Exn + B :=
  foldl (on_ok step) (inr b) l.

(** Insert the tensor of one name. *)
Definition merge_name (f : handle) (d : gmap string Tensor) (k : string)
  : Exn + gmap string Tensor :=
  match get_tensor f k with
  | inl e => inl e
  | inr v => inr (<[k := v]> d)
  end.

(** The per-path merge: the names of one container, in its enumeration
    order, folded into the dictionary. *)
Definition merge_path (d : gmap string Tensor) (path : string)
  : Exn + gmap string Tensor :=
  match safe_open path "pt" "cpu" with
  | inl e => inl e
  | inr f => foldl_exn (merge_name f) d (keys f)
  end.

(** The collector as the spec words it: a left fold of the per-path merge
    over the ordered path list, from the empty mapping. *)
Definition collect_fold (paths : list string) : Exn + gmap string Tensor :=
  foldl_exn merge_path ∅ paths.

End Script.

Arguments handle : clear implicits.
Arguments event : clear implicits.
Arguments outcome : clear implicits.
Arguments M : clear implicits.
Arguments Outcome {Tensor Exn A} _ _ _.
Arguments trace {Tensor Exn A} _.
Arguments tensors {Tensor Exn A} _.
Arguments result {Tensor Exn A} _.

(** ** Two runs *)

(** Two readers see the same contents at [path], up to the order in which
    the names are enumerated: both fail to open it, or both open it, and then
    they enumerate the same names, each as many times, and retrieve the same
    thing for every one of them. *)
Definition same_contents {Tensor Exn : Type}
    (open1 open2 : string → string → string → Exn + handle Tensor Exn)
    (path : string) : Prop :=
  match open1 path "pt" "cpu", open2 path "pt" "cpu" with
  | inl _, inl _ => True
  | inr f1, inr f2 =>
      keys f1 ≡ₚ keys f2 ∧ ∀ k, k ∈ keys f1 → get_tensor f1 k = get_tensor f2 k
  | _, _ => False
  end.

(** ** A small file system *)

Module Demo.

(** A container given by its entries, in enumeration order; tensors are
    numbers and exceptions are messages. *)
Definition container (entries : list (string * (string + nat))) : handle nat string :=
  Handle (entries.*1)
         (λ k, match find (λ entry, String.eqb entry.1 k) entries with
               | Some entry => entry.2
               | None => inl "KeyError"
               end).

Definition file_a : handle nat string := container [("x", inr 1); ("y", inr 2)].
Definition file_b : handle nat string := container [("x", inr 3); ("z", inr 4)].
Definition file_c : handle nat string := container [("a", inr 5); ("b", inr 6)].
Definition file_bad : handle nat string :=
  container [("u", inr 7); ("v", inl "corrupt"); ("w", inr 8)].

Definition files (a b : handle nat string) (path : string) : string + handle nat string :=
  if String.eqb path "a.safetensors" then inr a
  else if String.eqb path "b.safetensors" then inr b
  else if String.eqb path "c.safetensors" then inr file_c
  else if String.eqb path "bad.safetensors" then inr file_bad
  else inl "No such file or directory".

Definition safe_open (path framework device : string) : string + handle nat string :=
  files file_a file_b path.

(** The same files, read by a reader that enumerates the names of the first
    two in the opposite order. *)
Definition file_a' : handle nat string := container [("y", inr 2); ("x", inr 1)].
Definition file_b' : handle nat string := container [("z", inr 4); ("x", inr 3)].

Definition safe_open' (path framework device : string) : string + handle nat string :=
  files file_a' file_b' path.

(** The words of a command line. *)
Definition prog : string := "st_display.py".
Definition a : string := "a.safetensors".
Definition b : string := "b.safetensors".
Definition c : string := "c.safetensors".
Definition bad : string := "bad.safetensors".
Definition missing : string := "missing.safetensors".

(** A reader that knows no framework but "pt" and no device but "cpu". *)
Definition safe_open_pt (path framework device : string) : string + handle nat string :=
  if String.eqb framework "pt" && String.eqb device "cpu"
  then files file_a file_b path
  else inl "framework or device not available".

(** A file system with one more container, which has no tensor. *)
Definition empty : string := "empty.safetensors".
Definition file_empty : handle nat string := container [].

Definition safe_open_empty (path framework device : string) : string + handle nat string :=
  if String.eqb path empty then inr file_empty else files file_a file_b path.

End Demo.

(** * Properties of the script *)

Section Properties.

Context {Tensor Exn : Type}.
Variable safe_open : string → string → string → Exn + handle Tensor Exn.

Implicit Types (d : gmap string Tensor) (t : list (event Tensor)).
Implicit Types (f : handle Tensor Exn) (p k : string) (paths ks : list string).

(** ** Equations of the loops *)

Lemma for_each_nil {A} (body : A → M Tensor Exn ()) d :
  for_each [] body d = Outcome [] d (inr ()).
Proof. reflexivity. Qed.

Lemma for_each_cons {A} (x : A) l (body : A → M Tensor Exn ()) d :
  for_each (x :: l) body d =
    match result (body x d) with
    | inl e => Outcome (trace (body x d)) (tensors (body x d)) (inl e)
    | inr _ =>
        let o := for_each l body (tensors (body x d)) in
        Outcome (trace (body x d) ++ trace o) (tensors o) (result o)
    end.
Proof. reflexivity. Qed.

Lemma load_eq p f k d :
  load p f k d =
    match get_tensor f k with
    | inl e => Outcome [EvGetTensor p k] d (inl e)
    | inr v => Outcome [EvGetTensor p k; EvSetItem k v] (<[k := v]> d) (inr ())
    end.
Proof. unfold load, bind, call. by destruct (get_tensor f k). Qed.

Lemma visit_eq p d :
  visit safe_open p d =
    match safe_open p "pt" "cpu" with
    | inl e => Outcome [] d (inl e)
    | inr f =>
        let o := for_each (keys f) (load p f) d in
        Outcome (EvEnter p :: trace o ++ [EvExit p]) (tensors o) (result o)
    end.
Proof.
  unfold visit, with_safe_open, bind, call, finally.
  destruct (safe_open p "pt" "cpu") as [e|f]; [done|]. cbn.
  by destruct (result (for_each (keys f) (load p f) d)) as [e|[]].
Qed.

Lemma collect_nil d : collect safe_open [] d = Outcome [] d (inr ()).
Proof. reflexivity. Qed.

Lemma collect_cons p paths d :
  collect safe_open (p :: paths) d =
    match result (visit safe_open p d) with
    | inl e => Outcome (trace (visit safe_open p d)) (tensors (visit safe_open p d)) (inl e)
    | inr _ =>
        let o := collect safe_open paths (tensors (visit safe_open p d)) in
        Outcome (trace (visit safe_open p d) ++ trace o) (tensors o) (result o)
    end.
Proof. reflexivity. Qed.

Lemma main_eq argv :
  main safe_open argv =
    let o := collect safe_open (tail argv) ∅ in
    match result o with
    | inl e => Outcome (trace o) (tensors o) (inl e)
    | inr _ => Outcome (trace o ++ [EvPrint (tensors o)]) (tensors o) (inr ())
    end.
Proof. reflexivity. Qed.

(** An induction over the names of one container: the goal is left at the
    two outcomes of [get_tensor] for the first name. *)
Ltac loads_induction d ks f IH :=
  revert d; induction ks as [|?k ks IH]; intros d;
  [ try done
  | rewrite for_each_cons, load_eq;
    match goal with |- context [get_tensor f ?k] =>
      destruct (get_tensor f k) as [?e|?v] eqn:?Hget; cbn [trace tensors result app]
    end ].

(** An induction over the paths: the goal is left at the two outcomes of the
    first visit. *)
Ltac paths_induction d paths IH :=
  revert d; induction paths as [|?p paths IH]; intros d;
  [ try done
  | rewrite collect_cons;
    match goal with |- context [result (visit safe_open ?p d)] =>
      destruct (result (visit safe_open p d)) as [?e|[]] eqn:?Hres;
      cbn [trace tensors result]
    end ].

(** ** What a run prints *)

Lemma stdout_app t1 t2 : stdout (t1 ++ t2) = stdout t1 ++ stdout t2.
Proof. apply omap_app. Qed.

Lemma loads_stdout p f ks d : stdout (trace (for_each ks (load p f) d)) = [].
Proof. loads_induction d ks f IH; [done|apply IH]. Qed.

Lemma visit_stdout p d : stdout (trace (visit safe_open p d)) = [].
Proof.
  rewrite visit_eq. destruct (safe_open p "pt" "cpu") as [e|f]; [done|].
  cbn. change (omap _ ?t) with (stdout t).
  by rewrite stdout_app, loads_stdout.
Qed.

Lemma collect_stdout paths d : stdout (trace (collect safe_open paths d)) = [].
Proof.
  paths_induction d paths IH.
  - apply visit_stdout.
  - by rewrite stdout_app, visit_stdout, IH.
Qed.

(** ** Handles are scoped *)

Lemma scoped_app (held : option string) t1 t2 :
  scoped held (t1 ++ t2) =
    match scoped held t1 with
    | Some held' => scoped held' t2
    | None => None
    end.
Proof.
  revert held. induction t1 as [|ev t1 IH]; intros held; [done|].
  cbn. destruct (scope_step held ev); [apply IH|done].
Qed.

Lemma loads_scoped p f ks d :
  scoped (Some p) (trace (for_each ks (load p f) d)) = Some (Some p).
Proof.
  loads_induction d ks f IH; cbn.
  - by rewrite decide_True.
  - rewrite decide_True by done. apply IH.
Qed.

Lemma visit_scoped p d : scoped None (trace (visit safe_open p d)) = Some None.
Proof.
  rewrite visit_eq. destruct (safe_open p "pt" "cpu") as [e|f]; [done|].
  cbn. rewrite scoped_app, loads_scoped. cbn. by rewrite decide_True.
Qed.

Lemma collect_scoped paths d :
  scoped None (trace (collect safe_open paths d)) = Some None.
Proof.
  paths_induction d paths IH.
  - apply visit_scoped.
  - by rewrite scoped_app, visit_scoped, IH.
Qed.

Lemma main_scoped argv : scoped None (trace (main safe_open argv)) = Some None.
Proof.
  rewrite main_eq. cbn.
  destruct (result (collect safe_open (tail argv) ∅)); cbn.
  - apply collect_scoped.
  - by rewrite scoped_app, collect_scoped.
Qed.

(** A scoped trace, read event by event: a handle that is acquired is
    released later in the trace, and no handle is acquired in between. *)
Lemma scoped_release p t :
  scoped (Some p) t = Some None →
  ∃ j, t !! j = Some (EvExit p) ∧
       ∀ l q, l < j → t !! l ≠ Some (EvEnter q).
Proof.
  induction t as [|ev t IH]; [done|]. cbn.
  destruct ev as [q|q k|k v|q|d']; cbn; try done.
  - case_decide; [|done]. intros (j & Hj & Hnone)%IH.
    exists (S j). split; [done|]. intros [|l] q' Hl; [done|].
    apply Hnone. lia.
  - intros (j & Hj & Hnone)%IH.
    exists (S j). split; [done|]. intros [|l] q' Hl; [done|].
    apply Hnone. lia.
  - case_decide as Heq; [|done]. subst q. intros _.
    exists 0. split; [done|]. intros l q' Hl. lia.
Qed.

Lemma scoped_enter_exit (held : option string) t i p :
  scoped held t = Some None →
  t !! i = Some (EvEnter p) →
  ∃ j, i < j ∧ t !! j = Some (EvExit p) ∧
       ∀ l q, i < l < j → t !! l ≠ Some (EvEnter q).
Proof.
  revert held i. induction t as [|ev t IH]; intros held i; [done|].
  cbn. destruct (scope_step held ev) as [held'|] eqn:Hstep; [|done].
  intros Hsc. destruct i as [|i]; cbn.
  - intros [= ->]. destruct held; [done|]. cbn in Hstep.
    injection Hstep as <-.
    destruct (scoped_release p t Hsc) as (j & Hj & Hnone).
    exists (S j). split; [lia|]. split; [done|].
    intros [|l] q Hl; [lia|]. cbn. apply Hnone. lia.
  - intros Hi. destruct (IH held' i Hsc Hi) as (j & Hlt & Hj & Hnone).
    exists (S j). split; [lia|]. split; [done|].
    intros [|l] q Hl; [lia|]. cbn. apply Hnone. lia.
Qed.

(** ** The order of a run *)

Lemma entered_app t1 t2 : entered (t1 ++ t2) = entered t1 ++ entered t2.
Proof. apply omap_app. Qed.

Lemma retrieved_app t1 t2 : retrieved (t1 ++ t2) = retrieved t1 ++ retrieved t2.
Proof. apply omap_app. Qed.

Lemma loads_entered p f ks d : entered (trace (for_each ks (load p f) d)) = [].
Proof. loads_induction d ks f IH; [done|apply IH]. Qed.

Lemma loads_retrieved p f ks d :
  let o := for_each ks (load p f) d in
  match result o with
  | inl _ => retrieved (trace o) `prefix_of` (λ k, (p, k)) <$> ks
  | inr _ => retrieved (trace o) = (λ k, (p, k)) <$> ks
  end.
Proof.
  loads_induction d ks f IH; cbn.
  - apply prefix_cons, prefix_nil.
  - specialize (IH (<[k := v]> d)). cbn in IH.
    destruct (result (for_each ks (load p f) (<[k := v]> d))).
    + by apply prefix_cons.
    + by f_equal.
Qed.

Lemma visit_order p d :
  let o := visit safe_open p d in
  match result o with
  | inl _ => entered (trace o) `prefix_of` [p] ∧
             retrieved (trace o) `prefix_of` (λ k, (p, k)) <$> names safe_open p
  | inr _ => entered (trace o) = [p] ∧
             retrieved (trace o) = (λ k, (p, k)) <$> names safe_open p
  end.
Proof.
  cbn. rewrite visit_eq. unfold names.
  destruct (safe_open p "pt" "cpu") as [e|f]; cbn.
  { split; apply prefix_nil. }
  change (omap _ ?t) with (entered t) at 1 3.
  change (omap _ ?t) with (retrieved t).
  rewrite entered_app, retrieved_app, loads_entered, app_nil_r.
  pose proof (loads_retrieved p f (keys f) d) as H. cbn in H.
  change (retrieved [EvExit p]) with (@nil (string * string)).
  rewrite app_nil_r.
  destruct (result (for_each (keys f) (load p f) d)); done.
Qed.

Lemma enumeration_cons p paths :
  enumeration safe_open (p :: paths) =
  ((λ k, (p, k)) <$> names safe_open p) ++ enumeration safe_open paths.
Proof. reflexivity. Qed.

Lemma collect_order paths d :
  let o := collect safe_open paths d in
  match result o with
  | inl _ => entered (trace o) `prefix_of` paths ∧
             retrieved (trace o) `prefix_of` enumeration safe_open paths
  | inr _ => entered (trace o) = paths ∧
             retrieved (trace o) = enumeration safe_open paths
  end.
Proof.
  cbn. paths_induction d paths IH; rewrite enumeration_cons;
    pose proof (visit_order p d) as Hvisit; cbn in Hvisit; rewrite Hres in Hvisit;
    destruct Hvisit as [Hent Hret].
  - split.
    + by apply (prefix_app_r _ [p] paths).
    + by apply prefix_app_r.
  - rewrite entered_app, retrieved_app, Hent, Hret.
    specialize (IH (tensors (visit safe_open p d))).
    destruct (result (collect safe_open paths (tensors (visit safe_open p d))));
      destruct IH as [IHent IHret].
    + split; [by apply (prefix_cons p)|by apply prefix_app].
    + split; [by rewrite IHent|by rewrite IHret].
Qed.

(** ** The dictionary is built by insertions alone *)

Lemma insertions_app t1 t2 : insertions (t1 ++ t2) = insertions t1 ++ insertions t2.
Proof. apply omap_app. Qed.

Lemma replay_app d t1 t2 : replay d (t1 ++ t2) = replay (replay d t1) t2.
Proof. unfold replay. by rewrite insertions_app, foldl_app. Qed.

Lemma replay_dom d t : dom d ⊆ dom (replay d t).
Proof.
  unfold replay. generalize (insertions t) as l. intros l. revert d.
  induction l as [|[k v] l IH]; intros d; [done|].
  cbn. etrans; [|apply IH]. rewrite dom_insert_L. set_solver.
Qed.

Lemma loads_replay p f ks d :
  tensors (for_each ks (load p f) d) = replay d (trace (for_each ks (load p f) d)).
Proof. loads_induction d ks f IH; [done|apply IH]. Qed.

Lemma visit_replay p d :
  tensors (visit safe_open p d) = replay d (trace (visit safe_open p d)).
Proof.
  rewrite visit_eq. destruct (safe_open p "pt" "cpu") as [e|f]; [done|].
  cbn [trace tensors]. rewrite loads_replay. unfold replay. f_equal.
  change (insertions (EvEnter p :: ?t)) with (insertions t).
  rewrite insertions_app. cbn. by rewrite app_nil_r.
Qed.

Lemma collect_replay paths d :
  tensors (collect safe_open paths d) = replay d (trace (collect safe_open paths d)).
Proof.
  paths_induction d paths IH.
  - apply visit_replay.
  - by rewrite replay_app, <- visit_replay, <- IH.
Qed.

Lemma loads_insertions p f ks d :
  let o := for_each ks (load p f) d in
  match result o with
  | inl _ => (insertions (trace o)).*1 `prefix_of` ks
  | inr _ => (insertions (trace o)).*1 = ks
  end.
Proof.
  loads_induction d ks f IH; cbn.
  - apply prefix_nil.
  - specialize (IH (<[k := v]> d)). cbn in IH.
    destruct (result (for_each ks (load p f) (<[k := v]> d))).
    + by apply prefix_cons.
    + by f_equal.
Qed.

Lemma visit_insertions p d :
  let o := visit safe_open p d in
  match result o with
  | inl _ => (insertions (trace o)).*1 `prefix_of` names safe_open p
  | inr _ => (insertions (trace o)).*1 = names safe_open p
  end.
Proof.
  cbn. rewrite visit_eq. unfold names.
  destruct (safe_open p "pt" "cpu") as [e|f]; cbn [trace result].
  { apply prefix_nil. }
  change (insertions (EvEnter p :: ?t)) with (insertions t).
  rewrite insertions_app. cbn. rewrite app_nil_r. apply loads_insertions.
Qed.

Lemma names_of_pairs p : ((λ k, (p, k)) <$> names safe_open p).*2 = names safe_open p.
Proof. rewrite <- list_fmap_compose. apply list_fmap_id. Qed.

Lemma collect_insertions paths d :
  let o := collect safe_open paths d in
  match result o with
  | inl _ => (insertions (trace o)).*1 `prefix_of` (enumeration safe_open paths).*2
  | inr _ => (insertions (trace o)).*1 = (enumeration safe_open paths).*2
  end.
Proof.
  cbn. paths_induction d paths IH;
    rewrite enumeration_cons, fmap_app, names_of_pairs;
    pose proof (visit_insertions p d) as Hvisit; cbn in Hvisit;
    rewrite Hres in Hvisit.
  - by apply prefix_app_r.
  - rewrite insertions_app, fmap_app, Hvisit.
    specialize (IH (tensors (visit safe_open p d))).
    destruct (result (collect safe_open paths (tensors (visit safe_open p d)))).
    + by apply prefix_app.
    + by rewrite IH.
Qed.

(** ** The dictionary is not read by the loops *)

Lemma loads_oblivious p f ks d d' :
  trace (for_each ks (load p f) d) = trace (for_each ks (load p f) d') ∧
  result (for_each ks (load p f) d) = result (for_each ks (load p f) d').
Proof.
  revert d d'. induction ks as [|k ks IH]; intros d d'; [done|].
  rewrite !for_each_cons, !load_eq.
  destruct (get_tensor f k) as [e|v]; cbn; [done|].
  destruct (IH (<[k := v]> d) (<[k := v]> d')) as [-> ->]. done.
Qed.

Lemma visit_oblivious p d d' :
  trace (visit safe_open p d) = trace (visit safe_open p d') ∧
  result (visit safe_open p d) = result (visit safe_open p d').
Proof.
  rewrite !visit_eq. destruct (safe_open p "pt" "cpu") as [e|f]; [done|].
  cbn. destruct (loads_oblivious p f (keys f) d d') as [-> ->]. done.
Qed.

Lemma collect_oblivious paths d d' :
  trace (collect safe_open paths d) = trace (collect safe_open paths d') ∧
  result (collect safe_open paths d) = result (collect safe_open paths d').
Proof.
  revert d d'. induction paths as [|p paths IH]; intros d d'; [done|].
  rewrite !collect_cons.
  destruct (visit_oblivious p d d') as [Ht Hr]. rewrite Ht, Hr.
  destruct (result (visit safe_open p d')) as [e|[]]; cbn; [done|].
  destruct (IH (tensors (visit safe_open p d)) (tensors (visit safe_open p d')))
    as [-> ->]. done.
Qed.

(** ** A run over a concatenation *)

Lemma collect_app paths1 paths2 d :
  collect safe_open (paths1 ++ paths2) d =
    let o1 := collect safe_open paths1 d in
    match result o1 with
    | inl e => Outcome (trace o1) (tensors o1) (inl e)
    | inr _ =>
        let o2 := collect safe_open paths2 (tensors o1) in
        Outcome (trace o1 ++ trace o2) (tensors o2) (result o2)
    end.
Proof.
  revert d. induction paths1 as [|p paths1 IH]; intros d.
  - rewrite collect_nil. cbn [trace tensors result app].
    by destruct (collect safe_open paths2 d).
  - change ((p :: paths1) ++ paths2) with (p :: (paths1 ++ paths2)).
    rewrite !collect_cons.
    destruct (result (visit safe_open p d)) as [e|[]]; [done|].
    cbn zeta. rewrite IH. cbn zeta.
    destruct (result (collect safe_open paths1 (tensors (visit safe_open p d))));
      cbn; [done|].
    by rewrite app_assoc.
Qed.

(** ** The run computes the fold *)

Lemma foldl_exn_cons {A B} (step : B → A → Exn + B) (b : B) (x : A) (l : list A) :
  foldl_exn step b (x :: l) =
    match step b x with
    | inl e => inl e
    | inr b' => foldl_exn step b' l
    end.
Proof.
  unfold foldl_exn. cbn. destruct (step b x) as [e|b']; [|done].
  induction l as [|y l IH]; [done|apply IH].
Qed.

Lemma returned_inr (o : outcome Tensor Exn ()) d :
  returned o = inr d ↔ result o = inr () ∧ tensors o = d.
Proof.
  unfold returned. destruct (result o) as [e|[]]; split.
  - done.
  - by intros [? _].
  - intros [= <-]. done.
  - by intros [_ <-].
Qed.

Lemma returned_inl (o : outcome Tensor Exn ()) e :
  returned o = inl e ↔ result o = inl e.
Proof.
  unfold returned. destruct (result o) as [e'|[]]; split; congruence.
Qed.

Lemma loads_returned p f ks d :
  returned (for_each ks (load p f) d) = foldl_exn (merge_name f) d ks.
Proof.
  revert d. induction ks as [|k ks IH]; intros d; [done|].
  rewrite for_each_cons, load_eq, foldl_exn_cons. unfold merge_name at 1.
  destruct (get_tensor f k) as [e|v]; cbn; [done|].
  rewrite <- IH. done.
Qed.

Lemma visit_returned p d :
  returned (visit safe_open p d) = merge_path safe_open d p.
Proof.
  rewrite visit_eq. unfold merge_path.
  destruct (safe_open p "pt" "cpu") as [e|f]; [done|].
  rewrite <- (loads_returned p). done.
Qed.

Lemma collect_returned paths d :
  returned (collect safe_open paths d) = foldl_exn (merge_path safe_open) d paths.
Proof.
  revert d. induction paths as [|p paths IH]; intros d; [done|].
  rewrite collect_cons, foldl_exn_cons, <- visit_returned.
  unfold returned at 2.
  destruct (result (visit safe_open p d)) as [e|[]]; [done|].
  rewrite <- IH. done.
Qed.

(** ** Valid containers *)

Lemma ok_inr {A} (r : Exn + A) : ok r = true ↔ ∃ a, r = inr a.
Proof.
  destruct r as [e|a]; cbn; split; try done.
  - by intros [a [=]].
  - eauto.
Qed.

Lemma readable_spec f :
  readable f = true ↔ ∀ k, k ∈ keys f → ∃ v, get_tensor f k = inr v.
Proof.
  unfold readable. rewrite forallb_forall. split.
  - intros H k Hk. apply ok_inr, H. by apply list_elem_of_In.
  - intros H k Hk. apply ok_inr, H. by apply list_elem_of_In.
Qed.

Lemma valid_spec p :
  valid safe_open p = true ↔
  ∃ f, safe_open p "pt" "cpu" = inr f ∧ readable f = true.
Proof.
  unfold valid. destruct (safe_open p "pt" "cpu") as [e|f]; split.
  - done.
  - by intros (f & [=] & _).
  - eauto.
  - by intros (f' & [= <-] & ?).
Qed.

Lemma all_valid_spec paths :
  forallb (valid safe_open) paths = true ↔
  ∀ p, p ∈ paths → valid safe_open p = true.
Proof.
  rewrite forallb_forall. split; intros H p Hp; apply H; by apply list_elem_of_In.
Qed.

Lemma merge_names_lookup f ks d :
  (∀ k, k ∈ ks → ∃ v, get_tensor f k = inr v) →
  ∃ d', foldl_exn (merge_name f) d ks = inr d' ∧
        ∀ k, d' !! k =
             if decide (k ∈ ks)
             then match get_tensor f k with inl _ => None | inr v => Some v end
             else d !! k.
Proof.
  revert d. induction ks as [|k0 ks IH]; intros d Hks.
  - exists d. split; [done|]. intros k. case_decide; [|done]. set_solver.
  - destruct (Hks k0) as [v0 Hv0]; [set_solver|].
    destruct (IH (<[k0 := v0]> d)) as (d' & Hd' & Hlook); [set_solver|].
    exists d'. split.
    + rewrite foldl_exn_cons. unfold merge_name at 1. by rewrite Hv0.
    + intros k. rewrite Hlook.
      destruct (decide (k ∈ ks)) as [Hin|Hin].
      * rewrite decide_True; [done|set_solver].
      * destruct (decide (k = k0)) as [->|Hne].
        -- rewrite lookup_insert_eq, decide_True, Hv0; [done|set_solver].
        -- rewrite lookup_insert_ne by done.
           rewrite decide_False; [done|set_solver].
Qed.

Lemma merge_path_lookup p d :
  valid safe_open p = true →
  ∃ d', merge_path safe_open d p = inr d' ∧
        ∀ k, d' !! k = rebind safe_open k (d !! k) p.
Proof.
  intros Hv. apply valid_spec in Hv as (f & Hf & Hr).
  unfold rebind, merge_path, names, value. rewrite Hf.
  apply merge_names_lookup. by apply readable_spec.
Qed.

Lemma collect_lookup paths d :
  forallb (valid safe_open) paths = true →
  ∃ d', returned (collect safe_open paths d) = inr d' ∧
        ∀ k, d' !! k = binding safe_open d paths k.
Proof.
  rewrite collect_returned. revert d.
  induction paths as [|p paths IH]; intros d Hv.
  - by exists d.
  - cbn in Hv. apply andb_true_iff in Hv as [Hp Hv].
    destruct (merge_path_lookup p d Hp) as (d1 & Hd1 & Hlook1).
    destruct (IH d1 Hv) as (d' & Hd' & Hlook).
    exists d'. split.
    + by rewrite foldl_exn_cons, Hd1.
    + intros k. rewrite Hlook. unfold binding. cbn. by rewrite Hlook1.
Qed.

(** A name that a valid path enumerates has a value there. *)
Lemma value_is_Some p k :
  valid safe_open p = true → k ∈ names safe_open p →
  is_Some (value safe_open p k).
Proof.
  intros Hv. apply valid_spec in Hv as (f & Hf & Hr).
  unfold names, value. rewrite Hf. intros Hk.
  destruct (proj1 (readable_spec f) Hr k Hk) as [v ->]. eauto.
Qed.

(** ** The binding of a name *)

Lemma binding_app d paths1 paths2 k :
  binding safe_open d (paths1 ++ paths2) k =
  foldl (rebind safe_open k) (binding safe_open d paths1 k) paths2.
Proof. unfold binding. apply foldl_app. Qed.

Lemma rebind_absent paths k (b : option Tensor) :
  (∀ p, p ∈ paths → k ∉ names safe_open p) →
  foldl (rebind safe_open k) b paths = b.
Proof.
  revert b. induction paths as [|p paths IH]; intros b H; [done|].
  cbn. unfold rebind at 2. rewrite decide_False by (apply H; set_solver).
  apply IH. intros p' Hp'. apply H. set_solver.
Qed.

Lemma binding_last d paths1 p paths2 k :
  k ∈ names safe_open p →
  (∀ p', p' ∈ paths2 → k ∉ names safe_open p') →
  binding safe_open d (paths1 ++ p :: paths2) k = value safe_open p k.
Proof.
  intros Hk Hlater. rewrite binding_app. cbn.
  rewrite rebind_absent by done. unfold rebind. by rewrite decide_True.
Qed.

Lemma rebind_union paths k (b : option Tensor) :
  forallb (valid safe_open) paths = true →
  foldl (rebind safe_open k) b paths =
  union_with (λ x _, Some x) (foldl (rebind safe_open k) None paths) b.
Proof.
  revert b. induction paths as [|p paths IH]; intros b Hv.
  - by destruct b.
  - cbn in Hv. apply andb_true_iff in Hv as [Hp Hv]. cbn.
    rewrite (IH (rebind safe_open k b p)), (IH (rebind safe_open k None p)) by done.
    unfold rebind. destruct (decide (k ∈ names safe_open p)) as [Hk|Hk].
    + destruct (value_is_Some p k Hp Hk) as [v ->].
      by destruct (foldl _ None paths), b.
    + by destruct (foldl _ None paths), b.
Qed.

Lemma binding_is_Some d paths k :
  forallb (valid safe_open) paths = true →
  is_Some (binding safe_open d paths k) ↔
  k ∈ dom d ∨ k ∈ enumerated safe_open paths.
Proof.
  unfold binding, enumerated. rewrite elem_of_dom.
  generalize (d !! k) as b.
  induction paths as [|p paths IH]; intros b Hv.
  - cbn. set_solver.
  - cbn in Hv. apply andb_true_iff in Hv as [Hp Hv]. cbn.
    rewrite IH by done. unfold rebind.
    destruct (decide (k ∈ names safe_open p)) as [Hk|Hk].
    + pose proof (value_is_Some p k Hp Hk). set_solver.
    + set_solver.
Qed.

(** ** Successful runs *)

Lemma collect_valid paths d :
  forallb (valid safe_open) paths = true →
  result (collect safe_open paths d) = inr () ∧
  ∀ k, tensors (collect safe_open paths d) !! k = binding safe_open d paths k.
Proof.
  intros Hv. destruct (collect_lookup paths d Hv) as (d' & Hret & Hlook).
  apply returned_inr in Hret as [Hres <-]. done.
Qed.

Lemma collect_dom paths d :
  forallb (valid safe_open) paths = true →
  dom (tensors (collect safe_open paths d)) = dom d ∪ enumerated safe_open paths.
Proof.
  intros Hv. destruct (collect_valid paths d Hv) as [_ Hlook].
  apply set_eq. intros k. rewrite elem_of_dom, Hlook, binding_is_Some by done.
  set_solver.
Qed.

Lemma forallb_valid_app paths1 paths2 :
  forallb (valid safe_open) (paths1 ++ paths2) = true ↔
  forallb (valid safe_open) paths1 = true ∧ forallb (valid safe_open) paths2 = true.
Proof. rewrite forallb_app. apply andb_true_iff. Qed.

(** ** Failing runs *)

Lemma merge_names_ok f ks d :
  ok (foldl_exn (merge_name f) d ks) = forallb (λ k, ok (get_tensor f k)) ks.
Proof.
  revert d. induction ks as [|k ks IH]; intros d; [done|].
  rewrite foldl_exn_cons. cbn. unfold merge_name at 1.
  destruct (get_tensor f k) as [e|v]; [done|].
  apply IH.
Qed.

Lemma merge_path_ok p d : ok (merge_path safe_open d p) = valid safe_open p.
Proof.
  unfold merge_path, valid, readable.
  destruct (safe_open p "pt" "cpu") as [e|f]; [done|]. apply merge_names_ok.
Qed.

Lemma fold_paths_ok paths d :
  ok (foldl_exn (merge_path safe_open) d paths) = forallb (valid safe_open) paths.
Proof.
  revert d. induction paths as [|p paths IH]; intros d; [done|].
  rewrite foldl_exn_cons. cbn. rewrite <- merge_path_ok with (d := d).
  destruct (merge_path safe_open d p) as [e|d']; [done|]. apply IH.
Qed.

(** The loop over the paths ends without an exception exactly when every
    path is valid. *)
Lemma collect_ok paths d :
  ok (result (collect safe_open paths d)) = forallb (valid safe_open) paths.
Proof.
  rewrite <- (fold_paths_ok paths d), <- collect_returned. unfold returned.
  by destruct (result (collect safe_open paths d)).
Qed.

Lemma merge_names_raises f ks d e :
  foldl_exn (merge_name f) d ks = inl e → ∃ k, k ∈ ks ∧ get_tensor f k = inl e.
Proof.
  revert d. induction ks as [|k ks IH]; intros d; [done|].
  rewrite foldl_exn_cons. unfold merge_name at 1.
  destruct (get_tensor f k) as [e'|v] eqn:Hget.
  - intros [= ->]. exists k. split; [set_solver|done].
  - intros (k' & Hk' & He)%IH. exists k'. split; [set_solver|done].
Qed.

Lemma collect_raises paths d e :
  result (collect safe_open paths d) = inl e → raised_by_reader safe_open paths e.
Proof.
  rewrite <- returned_inl, collect_returned. revert d.
  induction paths as [|p paths IH]; intros d; [done|].
  rewrite foldl_exn_cons. destruct (merge_path safe_open d p) as [e'|d'] eqn:Hmerge.
  - intros [= ->]. exists p. split; [set_solver|].
    unfold merge_path in Hmerge.
    destruct (safe_open p "pt" "cpu") as [e'|f]; [left; congruence|].
    right. apply merge_names_raises in Hmerge as (k & Hk & He). eauto.
  - intros (p' & Hp' & He)%IH. exists p'. split; [set_solver|done].
Qed.

(** * The claims *)

(** C5: for the empty path list the collector returns the empty mapping
    without raising, and the script (whatever the program name in
    [sys.argv[0]], and also when [sys.argv] is empty) prints the empty
    mapping, once, and ends without an exception. *)
Theorem empty_path_list :
  collect safe_open [] ∅ = Outcome [] ∅ (inr ()) ∧
  (∀ prog, main safe_open [prog] = Outcome [EvPrint ∅] ∅ (inr ())) ∧
  main safe_open [] = Outcome [EvPrint ∅] ∅ (inr ()) ∧
  (∀ prog, stdout (trace (main safe_open [prog])) = [∅]).
Proof. repeat split. Qed.

(** C1: when every path opens and every enumerated name is retrieved, a name
    that several paths enumerate is bound, in the final mapping, to the value
    that the last of these paths returns for it. *)
Theorem last_write_wins paths1 p paths2 f k v :
  forallb (valid safe_open) (paths1 ++ p :: paths2) = true →
  safe_open p "pt" "cpu" = inr f →
  k ∈ keys f →
  get_tensor f k = inr v →
  (∀ p', p' ∈ paths2 → k ∉ names safe_open p') →
  result (collect safe_open (paths1 ++ p :: paths2) ∅) = inr () ∧
  tensors (collect safe_open (paths1 ++ p :: paths2) ∅) !! k = Some v.
Proof.
  intros Hv Hf Hk Hget Hlater.
  destruct (collect_valid _ ∅ Hv) as [Hres Hlook]. split; [done|].
  rewrite Hlook, binding_last; [| |done].
  - unfold value. by rewrite Hf, Hget.
  - unfold names. by rewrite Hf.
Qed.

(** C3: for two valid containers with disjoint name sets, the run succeeds,
    the key set of the mapping is the union of the two name sets, and every
    name is bound to the value that its own container returns for it. *)
Theorem disjoint_containers p1 p2 f1 f2 :
  safe_open p1 "pt" "cpu" = inr f1 →
  safe_open p2 "pt" "cpu" = inr f2 →
  readable f1 = true →
  readable f2 = true →
  keys f1 ## keys f2 →
  let o := collect safe_open [p1; p2] ∅ in
  result o = inr () ∧
  dom (tensors o) = list_to_set (keys f1) ∪ list_to_set (keys f2) ∧
  (∀ k, k ∈ keys f1 → ∃ v, get_tensor f1 k = inr v ∧ tensors o !! k = Some v) ∧
  (∀ k, k ∈ keys f2 → ∃ v, get_tensor f2 k = inr v ∧ tensors o !! k = Some v).
Proof.
  intros Hf1 Hf2 Hr1 Hr2 Hdisj o.
  assert (Hv : forallb (valid safe_open) [p1; p2] = true).
  { cbn. unfold valid. by rewrite Hf1, Hf2, Hr1, Hr2. }
  assert (Hn1 : names safe_open p1 = keys f1) by (unfold names; by rewrite Hf1).
  assert (Hn2 : names safe_open p2 = keys f2) by (unfold names; by rewrite Hf2).
  destruct (collect_valid _ ∅ Hv) as [Hres Hlook]. fold o in Hres, Hlook.
  split; [done|]. split; [|split].
  - subst o. rewrite collect_dom by done. unfold enumerated. cbn.
    rewrite Hn1, Hn2, app_nil_r, list_to_set_app_L, dom_empty_L. set_solver.
  - intros k Hk. destruct (proj1 (readable_spec f1) Hr1 k Hk) as [v Hget].
    exists v. split; [done|].
    rewrite Hlook. rewrite (binding_last ∅ [] p1 [p2] k).
    + unfold value. by rewrite Hf1, Hget.
    + by rewrite Hn1.
    + intros p' Hp'. apply list_elem_of_singleton in Hp' as ->.
      rewrite Hn2. intros Hk2. by apply (Hdisj k).
  - intros k Hk. destruct (proj1 (readable_spec f2) Hr2 k Hk) as [v Hget].
    exists v. split; [done|].
    rewrite Hlook. rewrite (binding_last ∅ [p1] p2 [] k).
    + unfold value. by rewrite Hf2, Hget.
    + by rewrite Hn2.
    + intros p' Hp'. by apply elem_of_nil in Hp'.
Qed.

(** C4: for a single valid container whose name set is {"a", "b"}, the run
    succeeds and the mapping has exactly the keys "a" and "b", bound to the
    values that the container returns for them. *)
Theorem single_container p f va vb :
  safe_open p "pt" "cpu" = inr f →
  list_to_set (keys f) = ({["a"; "b"]} : gset string) →
  get_tensor f "a" = inr va →
  get_tensor f "b" = inr vb →
  let o := collect safe_open [p] ∅ in
  result o = inr () ∧
  dom (tensors o) = {["a"; "b"]} ∧
  tensors o !! "a" = Some va ∧
  tensors o !! "b" = Some vb ∧
  tensors o = {["a" := va; "b" := vb]}.
Proof.
  intros Hf Hkeys Ha Hb o.
  assert (Hin : ∀ k, k ∈ keys f ↔ k = "a" ∨ k = "b").
  { intros k. rewrite <- (elem_of_list_to_set (C := gset string)), Hkeys. set_solver. }
  assert (Hr : readable f = true).
  { apply readable_spec. intros k [->| ->]%Hin; eauto. }
  assert (Hv : forallb (valid safe_open) [p] = true).
  { cbn. unfold valid. by rewrite Hf, Hr. }
  assert (Hn : names safe_open p = keys f) by (unfold names; by rewrite Hf).
  destruct (collect_valid _ ∅ Hv) as [Hres Hlook]. fold o in Hres, Hlook.
  assert (Hall : ∀ k, tensors o !! k =
            if decide (k ∈ keys f) then value safe_open p k else None).
  { intros k. rewrite Hlook. unfold binding, rebind. cbn. by rewrite Hn. }
  assert (Hla : tensors o !! "a" = Some va).
  { rewrite Hall, decide_True by (apply Hin; auto). unfold value. by rewrite Hf, Ha. }
  assert (Hlb : tensors o !! "b" = Some vb).
  { rewrite Hall, decide_True by (apply Hin; auto). unfold value. by rewrite Hf, Hb. }
  split; [done|]. split; [|split; [done|split; [done|]]].
  - subst o. rewrite collect_dom by done. unfold enumerated. cbn.
    rewrite Hn, app_nil_r, Hkeys, dom_empty_L. set_solver.
  - apply map_eq. intros k.
    destruct (decide (k = "a")) as [->|Hna].
    { rewrite Hla. by rewrite lookup_insert_eq. }
    destruct (decide (k = "b")) as [->|Hnb].
    { rewrite Hlb. rewrite lookup_insert_ne by done. by rewrite lookup_singleton_eq. }
    rewrite Hall, decide_False by (rewrite Hin; intros [?|?]; done).
    rewrite lookup_insert_ne by done. by rewrite lookup_singleton_ne.
Qed.

(** C10: accumulation is a homomorphism from concatenation of valid path
    lists to right-biased union: the run over [paths1 ++ paths2] succeeds
    with the union of the two separate results in which the bindings of the
    second take precedence. *)
Theorem collect_app_union paths1 paths2 :
  forallb (valid safe_open) paths1 = true →
  forallb (valid safe_open) paths2 = true →
  let o := collect safe_open (paths1 ++ paths2) ∅ in
  let o1 := collect safe_open paths1 ∅ in
  let o2 := collect safe_open paths2 ∅ in
  result o = inr () ∧ result o1 = inr () ∧ result o2 = inr () ∧
  tensors o = tensors o2 ∪ tensors o1 ∧
  ∀ k, tensors o !! k =
       match tensors o2 !! k with
       | Some v => Some v
       | None => tensors o1 !! k
       end.
Proof.
  intros Hv1 Hv2 o o1 o2.
  assert (Hv : forallb (valid safe_open) (paths1 ++ paths2) = true)
    by by apply forallb_valid_app.
  destruct (collect_valid _ ∅ Hv) as [Hres Hlook].
  destruct (collect_valid _ ∅ Hv1) as [Hres1 Hlook1].
  destruct (collect_valid _ ∅ Hv2) as [Hres2 Hlook2].
  fold o in Hres, Hlook. fold o1 in Hres1, Hlook1. fold o2 in Hres2, Hlook2.
  assert (Hall : ∀ k, tensors o !! k =
            union_with (λ x _, Some x) (tensors o2 !! k) (tensors o1 !! k)).
  { intros k. rewrite Hlook, Hlook1, Hlook2, binding_app, rebind_union by done.
    unfold binding at 2. by rewrite lookup_empty. }
  repeat split; try done.
  - apply map_eq. intros k. by rewrite Hall, lookup_union.
  - intros k. rewrite Hall. by destruct (tensors o2 !! k), (tensors o1 !! k).
Qed.

(** C2: when some path of the command line does not open as a container,
    or enumerates a name whose retrieval raises, the script ends with an
    exception; that exception is the very one the reader raised at one of
    the paths, and nothing is written to standard output. *)
Theorem failure_propagates argv p :
  p ∈ tail argv →
  valid safe_open p = false →
  ∃ e, result (main safe_open argv) = inl e ∧
       raised_by_reader safe_open (tail argv) e ∧
       stdout (trace (main safe_open argv)) = [].
Proof.
  intros Hp Hbad.
  assert (Hall : forallb (valid safe_open) (tail argv) = false).
  { apply not_true_is_false. intros Hv.
    rewrite all_valid_spec in Hv. specialize (Hv p Hp). congruence. }
  rewrite <- (collect_ok _ ∅) in Hall. rewrite main_eq. cbn zeta.
  destruct (result (collect safe_open (tail argv) ∅)) as [e|[]] eqn:Hres; [|done].
  exists e. split; [done|]. split.
  - by apply (collect_raises _ ∅).
  - apply collect_stdout.
Qed.

(** C6: the run of the loops is the left fold of the per-path merge over the
    path list, exception included.  Handles are acquired in the order of the
    path list and names are retrieved in the order of the enumeration: of all
    the paths when the run succeeds, of an initial segment when it raises. *)
Theorem sequential_left_fold paths :
  let o := collect safe_open paths ∅ in
  returned o = collect_fold safe_open paths ∧
  match result o with
  | inl _ => entered (trace o) `prefix_of` paths ∧
             retrieved (trace o) `prefix_of` enumeration safe_open paths
  | inr _ => entered (trace o) = paths ∧
             retrieved (trace o) = enumeration safe_open paths
  end.
Proof.
  split.
  - apply collect_returned.
  - apply collect_order.
Qed.

(** C7: in every run of the script, failing or not, a handle that is
    acquired is released later in the run, no other handle is acquired in
    between, and no handle is open when the run ends.  In particular the
    handle is released when a retrieval raises inside the loop over the
    names. *)
Theorem handle_released argv i p :
  let t := trace (main safe_open argv) in
  t !! i = Some (EvEnter p) →
  scoped None t = Some None ∧
  ∃ j, i < j ∧ t !! j = Some (EvExit p) ∧
       ∀ l q, i < l < j → t !! l ≠ Some (EvEnter q).
Proof.
  intros t Hi. split.
  - apply main_scoped.
  - apply (scoped_enter_exit None); [apply main_scoped|done].
Qed.

(** C9: the life of the mapping.  Let [paths1] be the valid paths processed
    so far and [paths2] the rest of the path list.  The mapping after
    [paths1] is the state from which the run goes on; it is the replay, from
    the empty mapping, of the insertions made so far, which are one per
    enumerated (path, name) pair, in order; its key set is the set of the
    names enumerated so far; no key of it is missing at the end of the run,
    whether the rest succeeds or raises; every earlier state of the mapping
    has its keys in the final one; the loops behave the same on any mapping,
    hence do not read it, and write nothing to standard output; the script
    prints the final mapping, once. *)
Theorem mapping_lifecycle paths1 paths2 :
  forallb (valid safe_open) paths1 = true →
  let o1 := collect safe_open paths1 ∅ in
  let o2 := collect safe_open paths2 (tensors o1) in
  let o := collect safe_open (paths1 ++ paths2) ∅ in
  result o1 = inr () ∧
  o = Outcome (trace o1 ++ trace o2) (tensors o2) (result o2) ∧
  tensors o1 = replay ∅ (trace o1) ∧
  tensors o = replay ∅ (trace o) ∧
  (insertions (trace o1)).*1 = (enumeration safe_open paths1).*2 ∧
  dom (tensors o1) = enumerated safe_open paths1 ∧
  dom (tensors o1) ⊆ dom (tensors o) ∧
  (∀ t1 t2, trace o = t1 ++ t2 → dom (replay ∅ t1) ⊆ dom (tensors o)) ∧
  (∀ d, trace (collect safe_open (paths1 ++ paths2) d) = trace o ∧
        result (collect safe_open (paths1 ++ paths2) d) = result o) ∧
  stdout (trace o) = [] ∧
  (∀ prog, stdout (trace (main safe_open (prog :: paths1))) = [tensors o1]).
Proof.
  intros Hv o1 o2 o.
  destruct (collect_valid paths1 ∅ Hv) as [Hres1 _]. fold o1 in Hres1.
  assert (Ho : o = Outcome (trace o1 ++ trace o2) (tensors o2) (result o2)).
  { subst o o2. rewrite collect_app. cbn zeta. fold o1. by rewrite Hres1. }
  split; [done|]. split; [done|].
  split; [apply collect_replay|]. split; [apply collect_replay|].
  split.
  { pose proof (collect_insertions paths1 ∅) as H. cbn in H. fold o1 in H.
    by rewrite Hres1 in H. }
  split.
  { subst o1. rewrite collect_dom, dom_empty_L by done. set_solver. }
  split.
  { rewrite Ho. cbn [tensors]. subst o2. rewrite collect_replay. apply replay_dom. }
  split.
  { intros t1 t2 Ht. subst o. rewrite collect_replay, Ht, replay_app.
    apply replay_dom. }
  split; [intros d; apply collect_oblivious|].
  split; [apply collect_stdout|].
  intros prog. rewrite main_eq. cbn [tail]. fold o1. cbn zeta. rewrite Hres1.
  cbn [trace]. rewrite stdout_app. subst o1. by rewrite collect_stdout.
Qed.

End Properties.

(** ** Two runs on the same contents *)

Section TwoRuns.

Context {Tensor Exn : Type}.
Variables open1 open2 : string → string → string → Exn + handle Tensor Exn.

Lemma same_contents_names p k :
  same_contents open1 open2 p → k ∈ names open1 p ↔ k ∈ names open2 p.
Proof.
  unfold same_contents, names.
  destruct (open1 p "pt" "cpu") as [e1|f1], (open2 p "pt" "cpu") as [e2|f2];
    try done.
  intros [Hperm _]. by rewrite Hperm.
Qed.

Lemma same_contents_value p k :
  same_contents open1 open2 p → k ∈ names open1 p →
  value open1 p k = value open2 p k.
Proof.
  unfold same_contents, names, value.
  destruct (open1 p "pt" "cpu") as [e1|f1], (open2 p "pt" "cpu") as [e2|f2];
    try done.
  intros [_ Hget] Hk. by rewrite (Hget k Hk).
Qed.

Lemma same_contents_valid p :
  same_contents open1 open2 p → valid open1 p = valid open2 p.
Proof.
  intros Hsame. apply eq_true_iff_eq. rewrite !valid_spec.
  unfold same_contents in Hsame.
  destruct (open1 p "pt" "cpu") as [e1|f1], (open2 p "pt" "cpu") as [e2|f2];
    try done.
  - split; by intros (f & [=] & _).
  - destruct Hsame as [Hperm Hget]. split.
    + intros (f & [= <-] & Hr). exists f2. split; [done|].
      apply readable_spec. intros k Hk. rewrite <- Hperm in Hk.
      rewrite <- (Hget k Hk). by apply readable_spec.
    + intros (f & [= <-] & Hr). exists f1. split; [done|].
      apply readable_spec. intros k Hk. rewrite (Hget k Hk).
      apply readable_spec; [done|]. by rewrite <- Hperm.
Qed.

Lemma same_contents_all_valid paths :
  (∀ p, p ∈ paths → same_contents open1 open2 p) →
  forallb (valid open1) paths = forallb (valid open2) paths.
Proof.
  induction paths as [|p paths IH]; intros Hsame; [done|].
  cbn. rewrite (same_contents_valid p), IH; [done| |]; set_solver.
Qed.

Lemma same_contents_binding paths k (b : option Tensor) :
  (∀ p, p ∈ paths → same_contents open1 open2 p) →
  foldl (rebind open1 k) b paths = foldl (rebind open2 k) b paths.
Proof.
  revert b. induction paths as [|p paths IH]; intros b Hsame; [done|].
  cbn. rewrite IH by set_solver. f_equal.
  assert (Hp : same_contents open1 open2 p) by set_solver.
  unfold rebind.
  destruct (decide (k ∈ names open1 p)) as [Hk|Hk].
  - rewrite decide_True by by apply (same_contents_names p k Hp).
    by apply same_contents_value.
  - rewrite decide_False; [done|]. by rewrite <- (same_contents_names p k Hp).
Qed.

(** C8: two runs over the same path list, by readers that see the same
    contents and may enumerate the names of a container in different orders,
    end alike: both raise, or both return, and then with the same mapping.
    Each returns exactly when every path is valid. *)
Theorem two_runs_agree paths :
  (∀ p, p ∈ paths → same_contents open1 open2 p) →
  let o1 := collect open1 paths ∅ in
  let o2 := collect open2 paths ∅ in
  mapping o1 = mapping o2 ∧
  ok (result o1) = forallb (valid open1) paths ∧
  ok (result o2) = forallb (valid open2) paths.
Proof.
  intros Hsame o1 o2.
  pose proof (collect_ok open1 paths ∅) as Hok1.
  pose proof (collect_ok open2 paths ∅) as Hok2.
  fold o1 in Hok1. fold o2 in Hok2.
  split; [|done].
  pose proof (same_contents_all_valid paths Hsame) as Hvalid.
  unfold mapping.
  destruct (result o1) as [e1|[]] eqn:Hres1, (result o2) as [e2|[]] eqn:Hres2;
    cbn in Hok1, Hok2; try congruence.
  f_equal. apply map_eq. intros k.
  destruct (collect_valid open1 paths ∅) as [_ Hlook1]; [done|].
  destruct (collect_valid open2 paths ∅) as [_ Hlook2]; [done|].
  fold o1 in Hlook1. fold o2 in Hlook2. rewrite Hlook1, Hlook2.
  unfold binding. rewrite !lookup_empty. by apply same_contents_binding.
Qed.

End TwoRuns.

(** * Further properties of the script *)

Section Further.

Context {Tensor Exn : Type}.
Variable safe_open : string → string → string → Exn + handle Tensor Exn.

Implicit Types (d : gmap string Tensor) (t : list (event Tensor)).
Implicit Types (f : handle Tensor Exn) (p k : string) (paths ks : list string).

(** ** Helper lemmas *)

Lemma for_each_app {A} (l1 l2 : list A) (body : A → M Tensor Exn ()) d :
  for_each (l1 ++ l2) body d =
    let o1 := for_each l1 body d in
    match result o1 with
    | inl e => Outcome (trace o1) (tensors o1) (inl e)
    | inr _ =>
        let o2 := for_each l2 body (tensors o1) in
        Outcome (trace o1 ++ trace o2) (tensors o2) (result o2)
    end.
Proof.
  revert d. induction l1 as [|x l1 IH]; intros d.
  - rewrite for_each_nil. cbn [trace tensors result app].
    by destruct (for_each l2 body d).
  - change ((x :: l1) ++ l2) with (x :: (l1 ++ l2)).
    rewrite !for_each_cons.
    destruct (result (body x d)) as [e|[]]; [done|].
    cbn zeta. rewrite IH. cbn zeta.
    destruct (result (for_each l1 body (tensors (body x d)))); cbn; [done|].
    by rewrite app_assoc.
Qed.

Lemma loads_ok p f ks d :
  forallb (λ k, ok (get_tensor f k)) ks = true →
  result (for_each ks (load p f) d) = inr ().
Proof.
  intros Hks. rewrite <- (merge_names_ok f ks d), <- (loads_returned p) in Hks.
  unfold returned in Hks.
  by destruct (result (for_each ks (load p f) d)) as [e|[]].
Qed.

Lemma replay_untouched d t k :
  k ∉ (insertions t).*1 → replay d t !! k = d !! k.
Proof.
  unfold replay. generalize (insertions t) as l. intros l. revert d.
  induction l as [|[k' v] l IH]; intros d Hk; [done|].
  cbn in *. rewrite IH by set_solver. apply lookup_insert_ne. set_solver.
Qed.

Lemma enumeration_names paths :
  (enumeration safe_open paths).*2 = paths ≫= names safe_open.
Proof.
  induction paths as [|p paths IH]; [done|].
  rewrite enumeration_cons, fmap_app, names_of_pairs, IH. done.
Qed.

Lemma inserted_names paths d k :
  k ∈ (insertions (trace (collect safe_open paths d))).*1 →
  k ∈ enumerated safe_open paths.
Proof.
  pose proof (collect_insertions safe_open paths d) as H. cbn in H.
  unfold enumerated. rewrite elem_of_list_to_set, <- enumeration_names.
  destruct (result (collect safe_open paths d)).
  - destruct H as [l ->]. set_solver.
  - by rewrite H.
Qed.

Lemma enumerated_spec paths k :
  k ∈ enumerated safe_open paths ↔ ∃ p, p ∈ paths ∧ k ∈ names safe_open p.
Proof.
  unfold enumerated. rewrite elem_of_list_to_set, list_elem_of_bind.
  naive_solver.
Qed.

Lemma binding_agree paths p k (b : option Tensor) :
  (∀ q, q ∈ paths → k ∈ names safe_open q →
        value safe_open q k = value safe_open p k) →
  p ∈ paths → k ∈ names safe_open p →
  foldl (rebind safe_open k) b paths = value safe_open p k.
Proof.
  induction paths as [|q paths IH] using rev_ind; intros Hagree Hp Hk.
  - by apply elem_of_nil in Hp.
  - rewrite foldl_app. cbn. unfold rebind at 1.
    destruct (decide (k ∈ names safe_open q)) as [Hq|Hq].
    + apply Hagree; [set_solver|done].
    + apply IH; [|set_solver|done].
      intros q' Hq' Hk'. apply Hagree; [set_solver|done].
Qed.

(** ** The whole script *)

(** X1: the script, for every command line, in terms of the fold over its
    paths: when the fold raises, the script ends with that exception and
    prints nothing; when the fold returns a mapping, the script ends without
    an exception, having printed that mapping, once, as the last event of
    the run.  The script ends without an exception exactly when every path
    is valid. *)
Theorem main_prints_fold argv :
  let o := main safe_open argv in
  match collect_fold safe_open (tail argv) with
  | inl e => result o = inl e ∧ stdout (trace o) = []
  | inr d => result o = inr () ∧ stdout (trace o) = [d] ∧
             tensors o = d ∧ last (trace o) = Some (EvPrint d)
  end ∧
  ok (result o) = forallb (valid safe_open) (tail argv).
Proof.
  cbn zeta. rewrite main_eq. cbn zeta.
  unfold collect_fold. rewrite <- collect_returned, <- (collect_ok safe_open _ ∅).
  unfold returned.
  destruct (result (collect safe_open (tail argv) ∅)) as [e|[]]; cbn [result trace tensors].
  - split; [|done]. split; [done|]. apply collect_stdout.
  - split; [|done]. split; [done|].
    rewrite stdout_app, collect_stdout, last_snoc. done.
Qed.

(** ** The first failure ends the run *)

(** X2: when the paths before [p] are valid and [p] does not open, the loop
    raises the exception of [safe_open]; the run is the run over the paths
    before [p], mapping included, so no handle is acquired for [p] and no
    later path is opened. *)
Theorem stops_at_unopenable paths1 p paths2 e d :
  forallb (valid safe_open) paths1 = true →
  safe_open p "pt" "cpu" = inl e →
  let o := collect safe_open (paths1 ++ p :: paths2) d in
  let o1 := collect safe_open paths1 d in
  result o = inl e ∧
  trace o = trace o1 ∧
  tensors o = tensors o1 ∧
  entered (trace o) = paths1.
Proof.
  intros Hv Hopen o o1.
  destruct (collect_valid safe_open paths1 d Hv) as [Hres1 _]. fold o1 in Hres1.
  assert (Ho : o = Outcome (trace o1) (tensors o1) (inl e)).
  { subst o. rewrite collect_app. cbn zeta. fold o1. rewrite Hres1.
    rewrite collect_cons, visit_eq, Hopen. cbn. by rewrite app_nil_r. }
  rewrite Ho. cbn [result trace tensors]. repeat split.
  pose proof (collect_order safe_open paths1 d) as Hord. cbn in Hord.
  fold o1 in Hord. rewrite Hres1 in Hord. apply Hord.
Qed.

(** X3: when the paths before [p] are valid, [p] opens, the names that it
    enumerates before [k] are retrieved and the retrieval of [k] raises, the
    loop raises that exception.  The handle of [p] was acquired and its
    release is the last event; [k] is the last name whose retrieval was
    started; the insertions are those of the earlier paths and of the names
    before [k], which the mapping keeps; no later name is retrieved and no
    later path is opened. *)
Theorem stops_at_unreadable paths1 p paths2 f ks1 k ks2 e d :
  forallb (valid safe_open) paths1 = true →
  safe_open p "pt" "cpu" = inr f →
  keys f = ks1 ++ k :: ks2 →
  forallb (λ k', ok (get_tensor f k')) ks1 = true →
  get_tensor f k = inl e →
  let o := collect safe_open (paths1 ++ p :: paths2) d in
  let o1 := collect safe_open paths1 d in
  result o = inl e ∧
  entered (trace o) = paths1 ++ [p] ∧
  retrieved (trace o) =
    enumeration safe_open paths1 ++ ((λ k', (p, k')) <$> (ks1 ++ [k])) ∧
  (insertions (trace o)).*1 = (enumeration safe_open paths1).*2 ++ ks1 ∧
  last (trace o) = Some (EvExit p) ∧
  foldl_exn (merge_name f) (tensors o1) ks1 = inr (tensors o).
Proof.
  intros Hv Hopen Hkeys Hks1 Hget o o1.
  destruct (collect_valid safe_open paths1 d Hv) as [Hres1 _]. fold o1 in Hres1.
  pose proof (collect_order safe_open paths1 d) as Hord. cbn in Hord.
  fold o1 in Hord. rewrite Hres1 in Hord. destruct Hord as [Hent1 Hret1].
  pose proof (collect_insertions safe_open paths1 d) as Hins1. cbn in Hins1.
  fold o1 in Hins1. rewrite Hres1 in Hins1.
  set (l1 := for_each ks1 (load p f) (tensors o1)).
  assert (Hl1 : result l1 = inr ()) by by apply loads_ok.
  pose proof (loads_retrieved p f ks1 (tensors o1)) as Hretl. cbn in Hretl.
  fold l1 in Hretl. rewrite Hl1 in Hretl.
  pose proof (loads_insertions p f ks1 (tensors o1)) as Hinsl. cbn in Hinsl.
  fold l1 in Hinsl. rewrite Hl1 in Hinsl.
  pose proof (loads_entered p f ks1 (tensors o1)) as Hentl. fold l1 in Hentl.
  pose proof (loads_returned p f ks1 (tensors o1)) as Hfold. fold l1 in Hfold.
  unfold returned in Hfold. rewrite Hl1 in Hfold.
  assert (Ho : o = Outcome
            (trace o1 ++ EvEnter p :: (trace l1 ++ [EvGetTensor p k]) ++ [EvExit p])
            (tensors l1) (inl e)).
  { subst o. rewrite collect_app. cbn zeta. fold o1. rewrite Hres1.
    rewrite collect_cons, visit_eq, Hopen. cbn zeta.
    rewrite Hkeys, for_each_app. cbn zeta. fold l1. rewrite Hl1.
    rewrite for_each_cons, load_eq, Hget. cbn. done. }
  rewrite Ho. cbn [result trace tensors]. split; [done|].
  split.
  { rewrite entered_app, Hent1. f_equal.
    change (entered (EvEnter p :: ?t)) with (p :: entered t).
    by rewrite !entered_app, Hentl. }
  split.
  { rewrite retrieved_app, Hret1. f_equal.
    change (retrieved (EvEnter p :: ?t)) with (retrieved t).
    rewrite !retrieved_app, Hretl. cbn. by rewrite app_nil_r, fmap_app. }
  split.
  { rewrite insertions_app, fmap_app, Hins1. f_equal.
    change (insertions (EvEnter p :: ?t)) with (insertions t).
    rewrite !insertions_app. cbn. by rewrite !app_nil_r. }
  split; [|by symmetry].
  rewrite app_comm_cons, app_assoc. apply last_snoc.
Qed.

(** ** What the loop leaves alone *)

(** X4: in every run, failing or not, a name that no container of the path
    list enumerates keeps the binding it had, and the script, which starts
    from the empty mapping, ends with no binding for it. *)
Theorem untouched_names paths d k prog :
  k ∉ enumerated safe_open paths →
  tensors (collect safe_open paths d) !! k = d !! k ∧
  tensors (main safe_open (prog :: paths)) !! k = None.
Proof.
  intros Hk.
  assert (H : ∀ d', tensors (collect safe_open paths d') !! k = d' !! k).
  { intros d'. rewrite collect_replay. apply replay_untouched.
    intros Hin. by apply Hk, (inserted_names paths d'). }
  split; [apply H|].
  rewrite main_eq. cbn [tail]. cbn zeta.
  destruct (result (collect safe_open paths ∅)); cbn [tensors];
    by rewrite H, lookup_empty.
Qed.

(** X8: a container that opens and enumerates no name is acquired and
    released and leaves the mapping as it is: the run over a path list that
    contains it ends as the run over the list without it, with the same
    mapping. *)
Theorem empty_container paths1 p paths2 f d :
  safe_open p "pt" "cpu" = inr f →
  keys f = [] →
  let o := collect safe_open (paths1 ++ p :: paths2) d in
  let o' := collect safe_open (paths1 ++ paths2) d in
  visit safe_open p d = Outcome [EvEnter p; EvExit p] d (inr ()) ∧
  result o = result o' ∧
  tensors o = tensors o'.
Proof.
  intros Hopen Hkeys o o'.
  assert (Hvisit : ∀ d', visit safe_open p d' = Outcome [EvEnter p; EvExit p] d' (inr ())).
  { intros d'. by rewrite visit_eq, Hopen, Hkeys. }
  split; [apply Hvisit|].
  subst o o'. rewrite !collect_app. cbn zeta.
  destruct (result (collect safe_open paths1 d)) as [e|[]]; [done|].
  rewrite collect_cons, Hvisit. cbn [result trace tensors]. cbn zeta.
  cbn [result trace tensors]. done.
Qed.

(** ** Repeated and reordered paths *)

(** X6: reading every file a second time changes nothing in the mapping,
    although every handle is acquired twice. *)
Theorem repeated_paths paths :
  forallb (valid safe_open) paths = true →
  let o := collect safe_open (paths ++ paths) ∅ in
  result o = inr () ∧
  tensors o = tensors (collect safe_open paths ∅) ∧
  entered (trace o) = paths ++ paths.
Proof.
  intros Hv o.
  assert (Hvv : forallb (valid safe_open) (paths ++ paths) = true)
    by by apply forallb_valid_app.
  destruct (collect_valid safe_open _ ∅ Hvv) as [Hres Hlook].
  destruct (collect_valid safe_open _ ∅ Hv) as [_ Hlook1].
  fold o in Hres, Hlook. split; [done|]. split.
  - apply map_eq. intros k.
    rewrite Hlook, Hlook1, binding_app, rebind_union by done.
    unfold binding. rewrite lookup_empty.
    by destruct (foldl (rebind safe_open k) None paths).
  - pose proof (collect_order safe_open (paths ++ paths) ∅) as Hord.
    cbn in Hord. fold o in Hord. rewrite Hres in Hord. apply Hord.
Qed.

(** X5: when the containers agree on every name that two of them share, the
    mapping depends only on which paths are given: two lists of valid paths
    with the same members, in any order and with any repetitions, give the
    same mapping. *)
Theorem path_order_irrelevant paths paths' :
  forallb (valid safe_open) paths = true →
  (∀ p, p ∈ paths ↔ p ∈ paths') →
  (∀ p q k, p ∈ paths → q ∈ paths →
            k ∈ names safe_open p → k ∈ names safe_open q →
            value safe_open p k = value safe_open q k) →
  result (collect safe_open paths ∅) = inr () ∧
  result (collect safe_open paths' ∅) = inr () ∧
  tensors (collect safe_open paths ∅) = tensors (collect safe_open paths' ∅).
Proof.
  intros Hv Hsame Hagree.
  assert (Hv' : forallb (valid safe_open) paths' = true).
  { apply all_valid_spec. intros p Hp. rewrite all_valid_spec in Hv.
    by apply Hv, Hsame. }
  destruct (collect_valid safe_open _ ∅ Hv) as [Hres Hlook].
  destruct (collect_valid safe_open _ ∅ Hv') as [Hres' Hlook'].
  split; [done|]. split; [done|].
  apply map_eq. intros k. rewrite Hlook, Hlook'. unfold binding.
  destruct (decide (k ∈ enumerated safe_open paths)) as [Hk|Hk].
  - apply enumerated_spec in Hk as (p & Hp & Hk).
    rewrite (binding_agree paths p k), (binding_agree paths' p k); try done.
    + intros q Hq Hkq. apply Hagree; [by apply Hsame|done..].
    + by apply Hsame.
    + intros q Hq Hkq. by apply Hagree.
  - rewrite enumerated_spec in Hk.
    rewrite !rebind_absent; [done| |].
    + intros p Hp Hkp. apply Hk. exists p. split; [by apply Hsame|done].
    + intros p Hp Hkp. apply Hk. eauto.
Qed.

End Further.

(** ** The run depends on the named files alone *)

Section Locality.

Context {Tensor Exn : Type}.
Variables open1 open2 : string → string → string → Exn + handle Tensor Exn.

Lemma collect_local paths (d : gmap string Tensor) :
  (∀ p, p ∈ paths → open1 p "pt" "cpu" = open2 p "pt" "cpu") →
  collect open1 paths d = collect open2 paths d.
Proof.
  revert d. induction paths as [|p paths IH]; intros d Hsame; [done|].
  rewrite !collect_cons.
  assert (Hvisit : ∀ d', visit open1 p d' = visit open2 p d').
  { intros d'. rewrite !visit_eq, (Hsame p) by set_solver. done. }
  rewrite Hvisit.
  destruct (result (visit open2 p d)) as [e|[]]; [done|].
  cbn zeta. rewrite IH; [done|]. intros q Hq. apply Hsame. set_solver.
Qed.

(** X7: the script consults the reader only at the paths of its command
    line, with the framework "pt" and the device "cpu": two readers that
    return the same there, whatever they do for any other path, framework or
    device, give the same run, event by event. *)
Theorem reader_locality argv :
  (∀ p, p ∈ tail argv → open1 p "pt" "cpu" = open2 p "pt" "cpu") →
  main open1 argv = main open2 argv.
Proof.
  intros Hsame. rewrite !main_eq. cbn zeta.
  by rewrite (collect_local (tail argv) ∅ Hsame).
Qed.

End Locality.

(** * The claims on the small file system *)

Section Witnesses.

Import Demo.

(** Two runs of the script, event by event. *)
Example run_a_b :
  main safe_open [prog; a; b] =
    Outcome [EvEnter a; EvGetTensor a "x"; EvSetItem "x" 1;
             EvGetTensor a "y"; EvSetItem "y" 2; EvExit a;
             EvEnter b; EvGetTensor b "x"; EvSetItem "x" 3;
             EvGetTensor b "z"; EvSetItem "z" 4; EvExit b;
             EvPrint {["x" := 3; "y" := 2; "z" := 4]}]
            {["x" := 3; "y" := 2; "z" := 4]}
            (inr ()).
Proof. vm_compute. reflexivity. Qed.

Example run_a_bad_b :
  main safe_open [prog; a; bad; b] =
    Outcome [EvEnter a; EvGetTensor a "x"; EvSetItem "x" 1;
             EvGetTensor a "y"; EvSetItem "y" 2; EvExit a;
             EvEnter bad; EvGetTensor bad "u"; EvSetItem "u" 7;
             EvGetTensor bad "v"; EvExit bad]
            {["x" := 1; "y" := 2; "u" := 7]}
            (inl "corrupt").
Proof. vm_compute. reflexivity. Qed.

Example run_missing :
  main safe_open [prog; missing; a] =
    Outcome [] ∅ (inl "No such file or directory").
Proof. vm_compute. reflexivity. Qed.

(** "x" is in both containers, with values 1 and 3: the run binds it to 3. *)
Lemma last_write_wins_witness :
  result (collect safe_open [a; b] ∅) = inr () ∧
  tensors (collect safe_open [a; b] ∅) !! "x" = Some 3.
Proof.
  apply (last_write_wins safe_open [a] b [] file_b "x" 3).
  - reflexivity.
  - reflexivity.
  - apply list_elem_of_In. cbn. auto.
  - reflexivity.
  - intros p' Hp'. by apply elem_of_nil in Hp'.
Defined.

(** The second path enumerates "v", whose retrieval raises "corrupt". *)
Lemma failure_propagates_witness :
  ∃ e, result (main safe_open [prog; a; bad; b]) = inl e ∧
       raised_by_reader safe_open [a; bad; b] e ∧
       stdout (trace (main safe_open [prog; a; bad; b])) = [].
Proof.
  apply (failure_propagates safe_open [prog; a; bad; b] bad).
  - apply list_elem_of_In. cbn. auto.
  - reflexivity.
Defined.

Lemma disjoint_containers_witness :
  let o := collect safe_open [a; c] ∅ in
  result o = inr () ∧
  dom (tensors o) = list_to_set (keys file_a) ∪ list_to_set (keys file_c) ∧
  (∀ k, k ∈ keys file_a → ∃ v, get_tensor file_a k = inr v ∧ tensors o !! k = Some v) ∧
  (∀ k, k ∈ keys file_c → ∃ v, get_tensor file_c k = inr v ∧ tensors o !! k = Some v).
Proof.
  apply (disjoint_containers safe_open a c file_a file_c).
  - reflexivity.
  - reflexivity.
  - reflexivity.
  - reflexivity.
  - intros k Ha Hc. apply list_elem_of_In in Ha, Hc. cbn in Ha, Hc.
    destruct Ha as [<-|[<-|[]]]; destruct Hc as [|[|[]]]; discriminate.
Defined.

Lemma single_container_witness :
  let o := collect safe_open [c] ∅ in
  result o = inr () ∧
  dom (tensors o) = {["a"; "b"]} ∧
  tensors o !! "a" = Some 5 ∧
  tensors o !! "b" = Some 6 ∧
  tensors o = {["a" := 5; "b" := 6]}.
Proof.
  apply (single_container safe_open c file_c 5 6).
  - reflexivity.
  - cbn. apply set_eq. intros k. rewrite !elem_of_union, !elem_of_singleton.
    rewrite elem_of_empty. tauto.
  - reflexivity.
  - reflexivity.
Defined.

(** The handle of "bad.safetensors" is acquired at position 6 of the trace;
    the retrieval of "v" raises, and the handle is released. *)
Lemma handle_released_witness :
  let t := trace (main safe_open [prog; a; bad; b]) in
  t !! 6 = Some (EvEnter bad) ∧
  scoped None t = Some None ∧
  ∃ j, 6 < j ∧ t !! j = Some (EvExit bad) ∧
       ∀ l q, 6 < l < j → t !! l ≠ Some (EvEnter q).
Proof.
  intros t. split; [reflexivity|].
  apply (handle_released safe_open [prog; a; bad; b] 6 bad). reflexivity.
Defined.

Lemma two_runs_agree_witness :
  let o1 := collect safe_open [a; b; c] ∅ in
  let o2 := collect safe_open' [a; b; c] ∅ in
  mapping o1 = mapping o2 ∧
  ok (result o1) = forallb (valid safe_open) [a; b; c] ∧
  ok (result o2) = forallb (valid safe_open') [a; b; c].
Proof.
  apply (two_runs_agree safe_open safe_open' [a; b; c]).
  intros p Hp. apply list_elem_of_In in Hp. cbn in Hp.
  destruct Hp as [<-|[<-|[<-|[]]]]; cbn.
  - split; [apply Permutation_swap|].
    intros k Hk. apply list_elem_of_In in Hk. cbn in Hk.
    destruct Hk as [<-|[<-|[]]]; reflexivity.
  - split; [apply Permutation_swap|].
    intros k Hk. apply list_elem_of_In in Hk. cbn in Hk.
    destruct Hk as [<-|[<-|[]]]; reflexivity.
  - split; [reflexivity|]. intros k Hk. reflexivity.
Defined.

Lemma mapping_lifecycle_witness :
  let o1 := collect safe_open [a; b] ∅ in
  let o := collect safe_open ([a; b] ++ [bad; c]) ∅ in
  result o1 = inr () ∧
  dom (tensors o1) = enumerated safe_open [a; b] ∧
  dom (tensors o1) ⊆ dom (tensors o) ∧
  stdout (trace (main safe_open [prog; a; b])) = [tensors o1].
Proof.
  intros o1 o.
  destruct (mapping_lifecycle safe_open [a; b] [bad; c])
    as (H1 & _ & _ & _ & _ & H2 & H3 & _ & _ & _ & H4); [reflexivity|].
  split; [exact H1|]. split; [exact H2|]. split; [exact H3|]. exact (H4 prog).
Defined.

Lemma collect_app_union_witness :
  let o := collect safe_open ([a; c] ++ [b]) ∅ in
  let o1 := collect safe_open [a; c] ∅ in
  let o2 := collect safe_open [b] ∅ in
  result o = inr () ∧ result o1 = inr () ∧ result o2 = inr () ∧
  tensors o = tensors o2 ∪ tensors o1 ∧
  ∀ k, tensors o !! k =
       match tensors o2 !! k with
       | Some v => Some v
       | None => tensors o1 !! k
       end.
Proof.
  apply (collect_app_union safe_open [a; c] [b]); reflexivity.
Defined.

End Witnesses.

(** * The further properties on the small file system *)

Section FurtherWitnesses.

Import Demo.

(** The second path does not exist. *)
Lemma stops_at_unopenable_witness :
  let o := collect safe_open ([a] ++ missing :: [b]) ∅ in
  let o1 := collect safe_open [a] ∅ in
  result o = inl "No such file or directory" ∧
  trace o = trace o1 ∧
  tensors o = tensors o1 ∧
  entered (trace o) = [a].
Proof.
  apply (stops_at_unopenable safe_open [a] missing [b]
           "No such file or directory" ∅); reflexivity.
Defined.

(** The second path enumerates "u", "v" and "w"; the retrieval of "v"
    raises. *)
Lemma stops_at_unreadable_witness :
  let o := collect safe_open ([a] ++ bad :: [b]) ∅ in
  let o1 := collect safe_open [a] ∅ in
  result o = inl "corrupt" ∧
  entered (trace o) = [a] ++ [bad] ∧
  retrieved (trace o) =
    enumeration safe_open [a] ++ ((λ k', (bad, k')) <$> (["u"] ++ ["v"])) ∧
  (insertions (trace o)).*1 = (enumeration safe_open [a]).*2 ++ ["u"] ∧
  last (trace o) = Some (EvExit bad) ∧
  foldl_exn (merge_name file_bad) (tensors o1) ["u"] = inr (tensors o).
Proof.
  apply (stops_at_unreadable safe_open [a] bad [b] file_bad ["u"] "v" ["w"]
           "corrupt" ∅); reflexivity.
Defined.

(** No container enumerates "q". *)
Lemma untouched_names_witness :
  tensors (collect safe_open [a; bad; b] {["q" := 9]}) !! "q"
    = ({["q" := 9]} : gmap string nat) !! "q" ∧
  tensors (main safe_open (prog :: [a; bad; b])) !! "q" = None.
Proof.
  apply (untouched_names safe_open [a; bad; b] {["q" := 9]} "q" prog).
  intros Hq. apply enumerated_spec in Hq as (p & Hp & Hq).
  apply list_elem_of_In in Hp. cbn in Hp.
  destruct Hp as [<-|[<-|[<-|[]]]];
    apply list_elem_of_In in Hq; vm_compute in Hq; intuition discriminate.
Defined.

Lemma empty_container_witness :
  let o := collect safe_open_empty ([a] ++ empty :: [b]) ∅ in
  let o' := collect safe_open_empty ([a] ++ [b]) ∅ in
  visit safe_open_empty empty ∅ = Outcome [EvEnter empty; EvExit empty] ∅ (inr ()) ∧
  result o = result o' ∧
  tensors o = tensors o'.
Proof.
  apply (empty_container safe_open_empty [a] empty [b] file_empty ∅); reflexivity.
Defined.

Lemma repeated_paths_witness :
  let o := collect safe_open ([a; b] ++ [a; b]) ∅ in
  result o = inr () ∧
  tensors o = tensors (collect safe_open [a; b] ∅) ∧
  entered (trace o) = [a; b] ++ [a; b].
Proof.
  apply (repeated_paths safe_open [a; b]). reflexivity.
Defined.

(** The containers "a.safetensors" and "c.safetensors" share no name. *)
Lemma path_order_irrelevant_witness :
  result (collect safe_open [a; c] ∅) = inr () ∧
  result (collect safe_open [c; a; c] ∅) = inr () ∧
  tensors (collect safe_open [a; c] ∅) = tensors (collect safe_open [c; a; c] ∅).
Proof.
  apply (path_order_irrelevant safe_open [a; c] [c; a; c]).
  - reflexivity.
  - intros p. rewrite !list_elem_of_In. cbn. tauto.
  - intros p q k Hp Hq Hkp Hkq.
    apply list_elem_of_In in Hp, Hq, Hkp, Hkq. cbn in Hp, Hq.
    destruct Hp as [<-|[<-|[]]]; destruct Hq as [<-|[<-|[]]];
      try reflexivity;
      vm_compute in Hkp, Hkq;
      destruct Hkp as [<-|[<-|[]]]; destruct Hkq as [Hkq|[Hkq|[]]];
      discriminate Hkq.
Defined.

Lemma reader_locality_witness :
  main safe_open [prog; a; bad; b] = main safe_open_pt [prog; a; bad; b].
Proof.
  apply (reader_locality safe_open safe_open_pt [prog; a; bad; b]).
  intros p _. reflexivity.
Defined.

End FurtherWitnesses.

End StDisplay.
